(** * pyepics [lib/device.py]: the [Device] wrapper around [epics.PV]

    A [Device] groups process variables (PVs) sharing a name prefix.  It
    keeps a dictionary [_pvs] from full PV names to handles obtained from
    the external [epics] library, fills it on demand, and forwards [get]
    and [put] to the handle.

    The external library is an interface ([EpicsLib]); the methods of the
    class are computations in a state-and-exception monad over a [World]
    made of the device object, the state of the external library and the
    record of the calls that crossed the boundary to it. *)

From Stdlib Require Import Floats.PrimFloat.
From stdpp Require Import base option list gmap strings pretty.

(** ** Results of calls that may raise *)

Inductive Res (E A : Type) : Type :=
  | Ok (a : A)
  | Raise (e : E).
Arguments Ok {E A} a.
Arguments Raise {E A} e.

(** Exceptions seen by the caller of a [Device] method: either raised by
    the external library ([ExtError]), or Python's own [KeyError] of the
    subscription [self._pvs[pvname]]. *)
Inductive Exc (Exn : Type) : Type :=
  | ExtError (e : Exn)
  | KeyError (key : string).
Arguments ExtError {Exn} e.
Arguments KeyError {Exn} key.

(** ** The external collaborator: [epics.PV], [PV.put], [PV.get]

    [Ext] is the state of the library (connections, the values behind the
    PVs, ...); each operation may change it and may raise.  A [Handle] is
    the object the constructor returned: two handles are the same instance
    when they are equal.  The value written and the values read are
    arbitrary Python objects ([PyObj]); the timeout is a float. *)
Class EpicsLib (Handle PyObj Exn Ext : Type) : Type := {
  epics_PV : string → Ext → Res Exn Handle * Ext;
  PV_put : Handle → PyObj → bool → float → Ext → Res Exn PyObj * Ext;
  PV_get : Handle → bool → Ext → Res Exn PyObj * Ext
}.

Section Device.
Context {Handle PyObj Exn Ext : Type} {lib : EpicsLib Handle PyObj Exn Ext}.

(** ** Data model *)

(** The two instance attributes set by [__init__]. *)
Record Device : Type := mkDevice {
  __prefix__ : option string;
  _pvs : gmap string Handle
}.

(** One call to the external library, with what it answered. *)
Inductive Event : Type :=
  | EvPV (pvname : string) (r : Res Exn Handle)
  | EvPut (h : Handle) (value : PyObj) (wait : bool) (timeout : float)
          (r : Res Exn PyObj)
  | EvGet (h : Handle) (as_string : bool) (r : Res Exn PyObj).

Record World : Type := mkWorld {
  self : Device;
  ext : Ext;
  calls : list Event
}.

(** ** The monad of method bodies *)

Definition M (A : Type) : Type := World → Res (Exc Exn) A * World.

#[export] Instance M_ret : MRet M := λ A a w, (Ok a, w).

Definition raise {A} (x : Exc Exn) : M A := λ w, (Raise x, w).

#[export] Instance M_bind : MBind M := λ A B k m w,
  match m w with
  | (Ok a, w') => k a w'
  | (Raise x, w') => (Raise x, w')
  end.

(** Attribute reads and writes on [self]. *)
Definition read {A} (field : Device → A) : M A := λ w,
  (Ok (field (self w)), w).

Definition write_prefix (p : option string) : M unit := λ w,
  (Ok tt, mkWorld (mkDevice p (_pvs (self w))) (ext w) (calls w)).

Definition write_pvs (pvs : gmap string Handle) : M unit := λ w,
  (Ok tt, mkWorld (mkDevice (__prefix__ (self w)) pvs) (ext w) (calls w)).

(** [self._pvs[key] = h] *)
Definition setitem_pvs (key : string) (h : Handle) : M unit :=
  pvs ← read _pvs; write_pvs (<[key := h]> pvs).

(** [self._pvs[key]] *)
Definition getitem_pvs (key : string) : M Handle :=
  pvs ← read _pvs;
  match pvs !! key with
  | Some h => mret h
  | None => raise (KeyError key)
  end.

(** Calls across the boundary: the library runs on [ext], its answer is
    appended to [calls], an exception of the library is raised as it is. *)
Definition lift {A} (r : Res Exn A) : Res (Exc Exn) A :=
  match r with
  | Ok a => Ok a
  | Raise e => Raise (ExtError e)
  end.

Definition external {A} (op : Ext → Res Exn A * Ext)
    (ev : Res Exn A → Event) : M A := λ w,
  let '(r, e') := op (ext w) in
  (lift r, mkWorld (self w) e' (calls w ++ [ev r])).

Definition call_PV (pvname : string) : M Handle :=
  external (epics_PV pvname) (EvPV pvname).

Definition call_put (h : Handle) (value : PyObj) (wait : bool)
    (timeout : float) : M PyObj :=
  external (PV_put h value wait timeout) (EvPut h value wait timeout).

Definition call_get (h : Handle) (as_string : bool) : M PyObj :=
  external (PV_get h as_string) (EvGet h as_string).

(** ** class Device *)

(** The local [pvname] of method [PV]:
    [pvname = attr], replaced by ["%s%s" % (self.__prefix__, attr)] when
    the prefix is not [None]. *)
Definition pvname (prefix : option string) (attr : string) : string :=
  match prefix with
  | Some p => p +:+ attr
  | None => attr
  end.

(** [def PV(self, attr)] *)
Definition PV (attr : string) : M Handle :=
  prefix ← read __prefix__;
  let pvname := pvname prefix attr in
  pvs ← read _pvs;
  (if bool_decide (pvs !! pvname = None)
   then (h ← call_PV pvname; setitem_pvs pvname h)
   else mret tt) ;;
  getitem_pvs pvname.

(** A keyword argument left out by the caller is [None] here; the
    default of the signature is then used. *)
Definition kwarg {A} (dflt : A) (given : option A) : A := default dflt given.

(** [def put(self, attr, value, wait=False, timeout=10.0)] *)
Definition put (attr : string) (value : PyObj) (wait : option bool)
    (timeout : option float) : M PyObj :=
  let wait := kwarg false wait in
  let timeout := kwarg 10.0%float timeout in
  h ← PV attr; call_put h value wait timeout.

(** [def get(self, attr, as_string=False)] *)
Definition get (attr : string) (as_string : option bool) : M PyObj :=
  let as_string := kwarg false as_string in
  h ← PV attr; call_get h as_string.

(** [for p in attrs: body(p)] *)
Fixpoint for_each {A} (l : list A) (body : A → M unit) : M unit :=
  match l with
  | [] => mret tt
  | p :: l' => body p ;; for_each l' body
  end.

(** [def __init__(self, prefix=None, attrs=None)] *)
Definition __init__ (prefix : option string) (attrs : option (list string))
    : M unit :=
  write_prefix prefix ;;
  write_pvs ∅ ;;
  match attrs with
  | Some l => for_each l (λ p, _ ← PV p; mret tt)
  | None => mret tt
  end.

(** ** Callers

    What a client of the class does with a device: it calls the three
    methods, one after the other, and may catch what a call raises and go
    on.  A script runs each call in the world left by the one before and
    keeps every outcome. *)

Inductive Op : Type :=
  | OpPV (attr : string)
  | OpPut (attr : string) (value : PyObj) (wait : option bool)
          (timeout : option float)
  | OpGet (attr : string) (as_string : option bool).

Inductive RetVal : Type :=
  | RHandle (h : Handle)
  | RObj (v : PyObj).

Definition run_op (op : Op) : M RetVal :=
  match op with
  | OpPV attr => h ← PV attr; mret (RHandle h)
  | OpPut attr value wait timeout =>
      v ← put attr value wait timeout; mret (RObj v)
  | OpGet attr as_string => v ← get attr as_string; mret (RObj v)
  end.

Definition op_attr (op : Op) : string :=
  match op with
  | OpPV attr | OpPut attr _ _ _ | OpGet attr _ => attr
  end.

Fixpoint run_script (ops : list Op) (w : World)
    : list (Res (Exc Exn) RetVal) * World :=
  match ops with
  | [] => ([], w)
  | op :: ops' =>
      let '(r, w1) := run_op op w in
      let '(rs, w2) := run_script ops' w1 in
      (r :: rs, w2)
  end.

(** ** Reading the record of calls *)

(** The calls made between world [w] and a later world [w']. *)
Definition new_calls (w w' : World) : list Event :=
  drop (length (calls w)) (calls w').

(** The names the constructor [epics.PV] was asked for. *)
Definition requested (evs : list Event) : list string :=
  omap (λ ev, match ev with EvPV name _ => Some name | _ => None end) evs.

(** The names for which the constructor returned a handle. *)
Definition created (evs : list Event) : list string :=
  omap (λ ev, match ev with EvPV name (Ok _) => Some name | _ => None end) evs.

(** The cache of [w] holds what the constructor returned since [w0], no more
    and no less, and no name was given a handle twice. *)
Definition tracked (w0 w : World) : Prop :=
  let evs := new_calls w0 w in
  calls w = calls w0 ++ evs
  ∧ NoDup (created evs)
  ∧ ∀ name h, EvPV name (Ok h) ∈ evs ↔ _pvs (self w) !! name = Some h.

(** What a call raised, if it raised. *)
Definition raised_by (ev : Event) : option Exn :=
  match ev with
  | EvPV _ (Raise e) | EvPut _ _ _ _ (Raise e) | EvGet _ _ (Raise e) => Some e
  | _ => None
  end.

Definition error_of {A} (r : Res (Exc Exn) A) : option (Exc Exn) :=
  match r with
  | Ok _ => None
  | Raise x => Some x
  end.

(** An operation that went from world [w] to world [w'] and ended with
    [r] has handed the exceptions of the library to its caller as they
    are: it only added calls to the record; it raised exactly when its
    last call to the library raised, and raised that very exception; and
    no call before the last one raised. *)
Definition propagated {A} (w w' : World) (r : Res (Exc Exn) A) : Prop :=
  let evs := new_calls w w' in
  calls w' = calls w ++ evs
  ∧ error_of r = ExtError <$> (last evs ≫= raised_by)
  ∧ omap raised_by evs = option_list (last evs ≫= raised_by).

(** The world with another prefix stored in the device. *)
Definition with_prefix (p : option string) (w : World) : World :=
  mkWorld (mkDevice p (_pvs (self w))) (ext w) (calls w).

End Device.

Arguments Device : clear implicits.
Arguments Event : clear implicits.
Arguments World : clear implicits.
Arguments Op : clear implicits.

(** ** A recording stand-in for the library

    Handles are numbered in the order of their creation; the empty name is
    refused; a PV has no value until one is written; [None] cannot be
    written. *)
Module Fake.

Inductive PyObj : Type :=
  | PyNone
  | PyInt (z : Z)
  | PyStr (s : string).

Record Ext : Type := mkExt {
  created : list string;
  values : gmap string PyObj
}.

Definition to_str (v : PyObj) : PyObj :=
  match v with
  | PyNone => PyStr "None"
  | PyInt z => PyStr (pretty z)
  | PyStr s => PyStr s
  end.

Definition new_PV (name : string) (e : Ext) : Res string nat * Ext :=
  if bool_decide (name = "")
  then (Raise "invalid name", e)
  else (Ok (length (created e)), mkExt (created e ++ [name]) (values e)).

Definition write (h : nat) (v : PyObj) (wait : bool) (timeout : float)
    (e : Ext) : Res string PyObj * Ext :=
  match created e !! h, v with
  | None, _ => (Raise "no such handle", e)
  | Some _, PyNone => (Raise "type mismatch", e)
  | Some name, _ => (Ok (PyInt 1), mkExt (created e) (<[name := v]> (values e)))
  end.

Definition read_value (h : nat) (as_string : bool) (e : Ext)
    : Res string PyObj * Ext :=
  match created e !! h with
  | None => (Raise "no such handle", e)
  | Some name =>
      match values e !! name with
      | None => (Raise "timeout", e)
      | Some v => (Ok (if as_string then to_str v else v), e)
      end
  end.

#[export] Instance fake_lib : EpicsLib nat PyObj string Ext :=
  {| epics_PV := new_PV; PV_put := write; PV_get := read_value |}.

(** Nothing created yet, no device attribute set. *)
Definition start : World nat PyObj string Ext :=
  mkWorld (mkDevice None ∅) (mkExt [] ∅) [].

(** [struck = epics.Device('13IDC:str:', attrs=('EraseStart', 'StopAll'))] *)
Definition struck : World nat PyObj string Ext :=
  (__init__ (Some "13IDC:str:") (Some ["EraseStart"; "StopAll"]) start).2.

(** [struck] as it is written out. *)
Definition struck_world : World nat PyObj string Ext :=
  mkWorld
    (mkDevice (Some "13IDC:str:")
       (<["13IDC:str:StopAll" := 1]> {["13IDC:str:EraseStart" := 0]}))
    (mkExt ["13IDC:str:EraseStart"; "13IDC:str:StopAll"] ∅)
    [EvPV "13IDC:str:EraseStart" (Ok 0); EvPV "13IDC:str:StopAll" (Ok 1)].

(** [struck] after [struck.PV('mca1')]. *)
Definition struck_mca1 : World nat PyObj string Ext :=
  mkWorld
    (mkDevice (Some "13IDC:str:")
       (<["13IDC:str:mca1" := 2]> (_pvs (self struck_world))))
    (mkExt ["13IDC:str:EraseStart"; "13IDC:str:StopAll"; "13IDC:str:mca1"] ∅)
    (calls struck_world ++ [EvPV "13IDC:str:mca1" (Ok 2)]).

End Fake.

(** * Properties *)

Section Properties.
Context {Handle PyObj Exn Ext : Type} {lib : EpicsLib Handle PyObj Exn Ext}.

Implicit Types (w : World Handle PyObj Exn Ext) (attr name : string).
Implicit Types (h : Handle) (op : Op PyObj).

(** The full name [PV attr] works with in world [w]. *)
Abbreviation key w attr := (pvname (__prefix__ (self w)) attr).

(** ** The body of [PV], flattened

    The subscription that ends [PV] always finds its key, so the three
    outcomes are: the cached handle; a new handle, stored; the exception
    of the constructor, nothing stored. *)

Lemma PV_eq w attr :
  PV attr w =
    match _pvs (self w) !! key w attr with
    | Some h => (Ok h, w)
    | None =>
        match epics_PV (key w attr) (ext w) with
        | (Ok h, e') =>
            (Ok h, mkWorld (mkDevice (__prefix__ (self w))
                              (<[key w attr := h]> (_pvs (self w))))
                     e' (calls w ++ [EvPV (key w attr) (Ok h)]))
        | (Raise e, e') =>
            (Raise (ExtError e),
             mkWorld (self w) e' (calls w ++ [EvPV (key w attr) (Raise e)]))
        end
    end.
Proof.
  unfold PV, getitem_pvs, setitem_pvs, call_PV, external, write_pvs.
  unfold mbind, mret, M_bind, M_ret, read, raise. simpl.
  destruct (_pvs (self w) !! key w attr) as [h|] eqn:Hlook.
  - rewrite bool_decide_eq_false_2 by done. by rewrite Hlook.
  - rewrite bool_decide_eq_true_2 by done.
    destruct (epics_PV (key w attr) (ext w)) as [[h|e] e']; simpl; [|done].
    by rewrite lookup_insert_eq.
Qed.

Lemma PV_cached w attr h :
  _pvs (self w) !! key w attr = Some h →
  PV attr w = (Ok h, w).
Proof. intros Hin. by rewrite PV_eq, Hin. Qed.

Lemma put_eq w attr value wait timeout :
  put attr value wait timeout w =
    match PV attr w with
    | (Ok h, w1) =>
        let wait := default false wait in
        let timeout := default 10.0%float timeout in
        let '(r, e') := PV_put h value wait timeout (ext w1) in
        (lift r, mkWorld (self w1) e'
                   (calls w1 ++ [EvPut h value wait timeout r]))
    | (Raise x, w1) => (Raise x, w1)
    end.
Proof. reflexivity. Qed.

Lemma get_eq w attr as_string :
  get attr as_string w =
    match PV attr w with
    | (Ok h, w1) =>
        let as_string := default false as_string in
        let '(r, e') := PV_get h as_string (ext w1) in
        (lift r, mkWorld (self w1) e' (calls w1 ++ [EvGet h as_string r]))
    | (Raise x, w1) => (Raise x, w1)
    end.
Proof. reflexivity. Qed.

Lemma new_calls_app w d e evs :
  new_calls w (mkWorld d e (calls w ++ evs)) = evs.
Proof. unfold new_calls. simpl. apply drop_app_length. Qed.

Lemma new_calls_refl w : new_calls w w = [].
Proof. unfold new_calls. apply drop_all. Qed.

(** ** The device after a call *)

Ltac PV_cases w attr :=
  rewrite (PV_eq w attr);
  let Hlook := fresh "Hlook" in
  let Hnew := fresh "Hnew" in
  destruct (_pvs (self w) !! key w attr) as [?h|] eqn:Hlook;
  [|destruct (epics_PV (key w attr) (ext w)) as [[?h|?e] ?e'] eqn:Hnew];
  simpl.

(** [put] and [get] leave the device as [PV] left it. *)
Lemma run_op_self op w :
  self (run_op op w).2 = self (PV (op_attr op) w).2.
Proof.
  destruct op as [attr|attr value wait timeout|attr as_string]; simpl;
    unfold mbind, M_bind; simpl.
  - by destruct (PV attr w) as [[h|x] w1].
  - rewrite put_eq. destruct (PV attr w) as [[h|x] w1]; simpl; [|done].
    by destruct (PV_put _ _ _ _ _) as [[v|e] e'].
  - rewrite get_eq. destruct (PV attr w) as [[h|x] w1]; simpl; [|done].
    by destruct (PV_get _ _ _) as [[v|e] e'].
Qed.

Lemma PV_prefix w attr :
  __prefix__ (self (PV attr w).2) = __prefix__ (self w).
Proof. by PV_cases w attr. Qed.

Lemma PV_other w attr name :
  name ≠ key w attr →
  _pvs (self (PV attr w).2) !! name = _pvs (self w) !! name.
Proof. intros Hne. PV_cases w attr; try done. by rewrite lookup_insert_ne. Qed.

Lemma PV_grows w attr : _pvs (self w) ⊆ _pvs (self (PV attr w).2).
Proof. PV_cases w attr; try done. by apply insert_subseteq. Qed.

Lemma run_op_prefix op w :
  __prefix__ (self (run_op op w).2) = __prefix__ (self w).
Proof. rewrite run_op_self. apply PV_prefix. Qed.

Lemma run_op_grows op w : _pvs (self w) ⊆ _pvs (self (run_op op w).2).
Proof. rewrite run_op_self. apply PV_grows. Qed.

Lemma run_script_prefix ops w :
  __prefix__ (self (run_script ops w).2) = __prefix__ (self w).
Proof.
  revert w. induction ops as [|op ops IH]; intros w; simpl; [done|].
  pose proof (run_op_prefix op w) as Hop.
  destruct (run_op op w) as [r w1]. specialize (IH w1).
  destruct (run_script ops w1) as [rs w2]. simpl in *. congruence.
Qed.

Lemma run_script_grows ops w :
  _pvs (self w) ⊆ _pvs (self (run_script ops w).2).
Proof.
  revert w. induction ops as [|op ops IH]; intros w; simpl; [done|].
  pose proof (run_op_grows op w) as Hop.
  destruct (run_op op w) as [r w1]. specialize (IH w1).
  destruct (run_script ops w1) as [rs w2]. simpl in *. by etrans.
Qed.

(** The loop of [__init__]. *)
Abbreviation preload := (λ p : string, PV p ≫= λ _, mret tt).

Lemma for_each_cons (p : string) l w :
  for_each (p :: l) preload w =
    match PV p w with
    | (Ok _, w1) => for_each l preload w1
    | (Raise x, w1) => (Raise x, w1)
    end.
Proof.
  simpl. unfold mbind, M_bind, mret, M_ret.
  by destruct (PV p w) as [[h|x] w1].
Qed.

Lemma for_each_prefix l w :
  __prefix__ (self (for_each l preload w).2) = __prefix__ (self w).
Proof.
  revert w. induction l as [|p l IH]; intros w; [done|].
  rewrite for_each_cons. pose proof (PV_prefix w p) as Hp.
  destruct (PV p w) as [[h|x] w1]; simpl in *; [|done].
  by rewrite IH.
Qed.

Lemma for_each_grows l w :
  _pvs (self w) ⊆ _pvs (self (for_each l preload w).2).
Proof.
  revert w. induction l as [|p l IH]; intros w; [done|].
  rewrite for_each_cons. pose proof (PV_grows w p) as Hp.
  destruct (PV p w) as [[h|x] w1]; simpl in *; [|done].
  by etrans.
Qed.

Lemma init_eq prefix attrs w :
  __init__ prefix attrs w =
    match attrs with
    | Some l =>
        for_each l preload (mkWorld (mkDevice prefix ∅) (ext w) (calls w))
    | None => (Ok tt, mkWorld (mkDevice prefix ∅) (ext w) (calls w))
    end.
Proof. by destruct attrs. Qed.

Lemma init_prefix prefix attrs w :
  __prefix__ (self (__init__ prefix attrs w).2) = prefix.
Proof.
  rewrite init_eq. destruct attrs as [l|]; [|done].
  by rewrite for_each_prefix.
Qed.

(** ** The calls a method makes *)

Lemma PV_new_calls w attr :
  new_calls w (PV attr w).2 =
    match _pvs (self w) !! key w attr with
    | Some _ => []
    | None => [EvPV (key w attr) (epics_PV (key w attr) (ext w)).1]
    end.
Proof.
  PV_cases w attr; [apply new_calls_refl|..]; by rewrite new_calls_app.
Qed.

Lemma PV_calls w attr :
  calls (PV attr w).2 = calls w ++ new_calls w (PV attr w).2.
Proof.
  rewrite PV_new_calls. PV_cases w attr; [|done..]. by rewrite app_nil_r.
Qed.

Lemma PV_returns_cached w attr h :
  (PV attr w).1 = Ok h → _pvs (self (PV attr w).2) !! key w attr = Some h.
Proof.
  PV_cases w attr; intros [= <-]; [done|]. by rewrite lookup_insert_eq.
Qed.

Lemma new_calls_app_assoc w d e evs1 evs2 :
  new_calls w (mkWorld d e ((calls w ++ evs1) ++ evs2)) = evs1 ++ evs2.
Proof. by rewrite <-app_assoc, new_calls_app. Qed.

Lemma put_resolves w attr value wait timeout :
  let w' := (put attr value wait timeout w).2 in
  requested (new_calls w w') =
    match _pvs (self w) !! key w attr with
    | Some _ => []
    | None => [key w attr]
    end
  ∧ ∀ h v wt t r, EvPut h v wt t r ∈ new_calls w w' →
      _pvs (self w') !! key w attr = Some h.
Proof.
  simpl. rewrite put_eq. PV_cases w attr;
    try (destruct (PV_put _ _ _ _ _) as [r e2] eqn:Hput; simpl);
    rewrite ?new_calls_app, ?new_calls_app_assoc; simpl; (split; [done|]);
    intros h' v wt t r'; rewrite ?elem_of_cons, elem_of_nil.
  - intros [[= -> _ _ _ _]|[]]. done.
  - intros [[=]|[[= -> _ _ _ _]|[]]]. by rewrite lookup_insert_eq.
  - intros [[=]|[]].
Qed.

Lemma get_resolves w attr as_string :
  let w' := (get attr as_string w).2 in
  requested (new_calls w w') =
    match _pvs (self w) !! key w attr with
    | Some _ => []
    | None => [key w attr]
    end
  ∧ ∀ h s r, EvGet h s r ∈ new_calls w w' →
      _pvs (self w') !! key w attr = Some h.
Proof.
  simpl. rewrite get_eq. PV_cases w attr;
    try (destruct (PV_get _ _ _) as [r e2] eqn:Hget; simpl);
    rewrite ?new_calls_app, ?new_calls_app_assoc; simpl; (split; [done|]);
    intros h' s' r'; rewrite ?elem_of_cons, elem_of_nil.
  - intros [[= -> _ _]|[]]. done.
  - intros [[=]|[[= -> _ _]|[]]]. by rewrite lookup_insert_eq.
  - intros [[=]|[]].
Qed.

(** ** Name resolution *)

(** C1. [PV attr] asks the constructor [epics.PV] for exactly
    [prefix + attr] when the device has a prefix and for [attr] itself
    when the prefix is [None]: the only call it makes is that request,
    made when the name is not cached yet, and the handle it returns is the
    one the cache holds under that name.  In particular, on a device
    constructed with prefix ["13IDC:str:"] (whatever was preloaded and
    whatever was called since), [put("EraseStart", v)] resolves
    ["13IDC:str:EraseStart"] and writes to the handle cached under that
    name, and [get("mca1")] resolves ["13IDC:str:mca1"] and reads from the
    handle cached under it. *)
Theorem PV_requests_prefix_plus_attr :
  (∀ w attr,
     let name := match __prefix__ (self w) with
                 | Some prefix => prefix +:+ attr
                 | None => attr
                 end in
     new_calls w (PV attr w).2 =
       match _pvs (self w) !! name with
       | Some _ => []
       | None => [EvPV name (epics_PV name (ext w)).1]
       end
     ∧ ∀ h, (PV attr w).1 = Ok h →
         _pvs (self (PV attr w).2) !! name = Some h)
  ∧ (∀ w0 attrs ops value wait timeout as_string,
       let d := (run_script ops
                   (__init__ (Some "13IDC:str:") attrs w0).2).2 in
       let d1 := (put "EraseStart" value wait timeout d).2 in
       let d2 := (get "mca1" as_string d).2 in
       (requested (new_calls d d1) =
          match _pvs (self d) !! "13IDC:str:EraseStart" with
          | Some _ => []
          | None => ["13IDC:str:EraseStart"]
          end
        ∧ ∀ h v wt t r, EvPut h v wt t r ∈ new_calls d d1 →
            _pvs (self d1) !! "13IDC:str:EraseStart" = Some h)
       ∧ (requested (new_calls d d2) =
            match _pvs (self d) !! "13IDC:str:mca1" with
            | Some _ => []
            | None => ["13IDC:str:mca1"]
            end
          ∧ ∀ h s r, EvGet h s r ∈ new_calls d d2 →
              _pvs (self d2) !! "13IDC:str:mca1" = Some h)).
Proof.
  split.
  - intros w attr. split.
    + apply PV_new_calls.
    + apply PV_returns_cached.
  - intros w0 attrs ops value wait timeout as_string d d1 d2.
    assert (__prefix__ (self d) = Some "13IDC:str:") as Hd.
    { unfold d. by rewrite run_script_prefix, init_prefix. }
    pose proof (put_resolves d "EraseStart" value wait timeout) as Hput.
    pose proof (get_resolves d "mca1" as_string) as Hget.
    rewrite Hd in Hput, Hget. done.
Qed.

(** ** Memoization *)

(** C2, as the code has it.  When a call of [PV attr] returns a handle,
    a second call returns the same handle and changes nothing: it makes
    no call to the library.  Over the two calls the constructor is asked
    for the name once when the name was not cached before the first
    call, and not at all when it was. *)
Theorem PV_twice_same_handle w attr h w1 :
  PV attr w = (Ok h, w1) →
  PV attr w1 = (Ok h, w1)
  ∧ requested (new_calls w (PV attr w1).2) =
      match _pvs (self w) !! pvname (__prefix__ (self w)) attr with
      | Some _ => []
      | None => [pvname (__prefix__ (self w)) attr]
      end.
Proof.
  intros Hfirst.
  pose proof (PV_returns_cached w attr h) as Hcached.
  pose proof (PV_prefix w attr) as Hprefix.
  pose proof (PV_new_calls w attr) as Hcalls.
  rewrite Hfirst in Hcached, Hprefix, Hcalls. simpl in *.
  assert (PV attr w1 = (Ok h, w1)) as Hsecond.
  { apply PV_cached. rewrite Hprefix. by apply Hcached. }
  split; [done|]. rewrite Hsecond. simpl. rewrite Hcalls.
  by destruct (_pvs (self w) !! key w attr).
Qed.

(** ** Forwarding *)

(** C3. Once [PV attr] has resolved the handle [h], [put] makes exactly
    one call, the write on [h] with the value, the wait flag and the
    timeout it was given, and returns (or raises) what that call returned
    (or raised).  A [wait] left out is [False], a [timeout] left out is
    [10.0]. *)
Theorem put_forwards_unchanged w attr value wait timeout h w1 :
  PV attr w = (Ok h, w1) →
  let answer := PV_put h value wait timeout (ext w1) in
  put attr value (Some wait) (Some timeout) w =
    (lift answer.1,
     mkWorld (self w1) answer.2
       (calls w1 ++ [EvPut h value wait timeout answer.1]))
  ∧ put attr value None None w
    = put attr value (Some false) (Some 10.0%float) w
  ∧ put attr value (Some wait) None w
    = put attr value (Some wait) (Some 10.0%float) w
  ∧ put attr value None (Some timeout) w
    = put attr value (Some false) (Some timeout) w.
Proof.
  intros Hres. simpl. split; [|done].
  rewrite put_eq, Hres. simpl.
  by destruct (PV_put h value wait timeout (ext w1)).
Qed.

(** C4. Once [PV attr] has resolved the handle [h], [get] makes exactly
    one call, the read on [h] with the [as_string] flag it was given, and
    returns (or raises) what that call returned (or raised).  An
    [as_string] left out is [False]. *)
Theorem get_forwards_unchanged w attr as_string h w1 :
  PV attr w = (Ok h, w1) →
  let answer := PV_get h as_string (ext w1) in
  get attr (Some as_string) w =
    (lift answer.1,
     mkWorld (self w1) answer.2 (calls w1 ++ [EvGet h as_string answer.1]))
  ∧ get attr None w = get attr (Some false) w.
Proof.
  intros Hres. simpl. split; [|done].
  rewrite get_eq, Hres. simpl.
  by destruct (PV_get h as_string (ext w1)).
Qed.

(** ** A constructor that raises *)

(** C8. When [PV attr] has to create the handle and [epics.PV] raises,
    [PV] raises that exception and the device is left as it was: nothing
    is stored under the name.  A second [PV attr] therefore asks the
    constructor again. *)
Theorem PV_failure_stores_nothing w attr e e' :
  let name := match __prefix__ (self w) with
              | Some prefix => prefix +:+ attr
              | None => attr
              end in
  _pvs (self w) !! name = None →
  epics_PV name (ext w) = (Raise e, e') →
  let w' := (PV attr w).2 in
  (PV attr w).1 = Raise (ExtError e)
  ∧ self w' = self w
  ∧ new_calls w' (PV attr w').2 = [EvPV name (epics_PV name (ext w')).1].
Proof.
  intros name Hout Hnew w'.
  assert (PV attr w =
            (Raise (ExtError e),
             mkWorld (self w) e' (calls w ++ [EvPV name (Raise e)]))) as Hfail.
  { rewrite PV_eq. change (key w attr) with name. by rewrite Hout, Hnew. }
  unfold w'. rewrite Hfail. simpl. split; [done|]. split; [done|].
  rewrite PV_new_calls. simpl. change (key w attr) with name. by rewrite Hout.
Qed.

(** ** Construction *)

Lemma for_each_app (l1 l2 : list string) w :
  for_each (l1 ++ l2) preload w =
    match for_each l1 preload w with
    | (Ok _, w1) => for_each l2 preload w1
    | (Raise x, w1) => (Raise x, w1)
    end.
Proof.
  revert w. induction l1 as [|p l1 IH]; intros w; [done|].
  rewrite <-app_comm_cons, !for_each_cons.
  destruct (PV p w) as [[h|x] w1]; [apply IH|done].
Qed.

Lemma for_each_cached l w a :
  (for_each l preload w).1 = Ok tt → a ∈ l →
  is_Some (_pvs (self (for_each l preload w).2) !! key w a).
Proof.
  revert w. induction l as [|p l IH]; intros w Hok Hin.
  { by apply elem_of_nil in Hin. }
  rewrite for_each_cons in Hok |- *.
  pose proof (PV_returns_cached w p) as Hp.
  pose proof (PV_prefix w p) as Hprefix.
  destruct (PV p w) as [[h|x] w1]; simpl in *; [|done].
  apply elem_of_cons in Hin as [->|Hin].
  - exists h. eapply lookup_weaken; [by apply Hp|apply for_each_grows].
  - rewrite <-Hprefix. by apply IH.
Qed.

Lemma for_each_raised l w x :
  (for_each l preload w).1 = Raise x →
  ∃ e name, x = ExtError e
    ∧ last (calls (for_each l preload w).2) = Some (EvPV name (Raise e)).
Proof.
  revert w. induction l as [|p l IH]; intros w; [done|].
  rewrite for_each_cons, (PV_eq w p).
  destruct (_pvs (self w) !! key w p) as [h|]; [apply IH|].
  destruct (epics_PV (key w p) (ext w)) as [[h|e] e']; [apply IH|].
  simpl. intros [= <-]. exists e, (key w p). by rewrite last_snoc.
Qed.

(** C5. A device constructed with prefix [p] and [attrs = [a1, a2]] holds
    handles for [p + a1] and [p + a2] as soon as it is constructed; the
    construction fails only by an exception of [epics.PV], the last call
    made.  With [attrs] left out or empty the construction succeeds,
    calls nothing and leaves the cache empty. *)
Theorem init_preloads_attrs :
  (∀ p a1 a2 w,
     let built := __init__ (Some p) (Some [a1; a2]) w in
     match built.1 with
     | Ok _ =>
         is_Some (_pvs (self built.2) !! (p +:+ a1))
         ∧ is_Some (_pvs (self built.2) !! (p +:+ a2))
     | Raise x =>
         ∃ e name, x = ExtError e
           ∧ last (calls built.2) = Some (EvPV name (Raise e))
     end)
  ∧ (∀ prefix w,
       __init__ prefix None w
       = (Ok tt, mkWorld (mkDevice prefix ∅) (ext w) (calls w)))
  ∧ (∀ prefix w,
       __init__ prefix (Some []) w
       = (Ok tt, mkWorld (mkDevice prefix ∅) (ext w) (calls w))).
Proof.
  split; [|done].
  intros p a1 a2 w. simpl. rewrite init_eq.
  set (w0 := mkWorld (mkDevice (Some p) ∅) (ext w) (calls w)).
  destruct (for_each [a1; a2] preload w0).1 as [[]|x] eqn:Hres.
  - split.
    + apply (for_each_cached [a1; a2] w0 a1 Hres). set_solver.
    + apply (for_each_cached [a1; a2] w0 a2 Hres). set_solver.
  - by apply for_each_raised.
Qed.

(** ** Exceptions *)

Lemma new_calls_trans w w1 w2 :
  calls w1 = calls w ++ new_calls w w1 →
  calls w2 = calls w1 ++ new_calls w1 w2 →
  new_calls w w2 = new_calls w w1 ++ new_calls w1 w2.
Proof.
  intros H1 H2. unfold new_calls at 1.
  by rewrite H2, H1 at 1; rewrite <-app_assoc, drop_app_length.
Qed.

Lemma propagated_refl {A} w (a : A) : propagated w w (Ok a).
Proof.
  unfold propagated. rewrite new_calls_refl. simpl.
  by rewrite app_nil_r.
Qed.

(** The exception of a failed step is the exception of the whole. *)
Lemma propagated_raise {A B} w w' x :
  propagated w w' (Raise x : Res (Exc Exn) A) →
  propagated w w' (Raise x : Res (Exc Exn) B).
Proof. done. Qed.

(** A step that returned, followed by another step. *)
Lemma propagated_seq {A B} w w1 w2 (a : A) (r : Res (Exc Exn) B) :
  propagated w w1 (Ok a) → propagated w1 w2 r → propagated w w2 r.
Proof.
  intros (Hc1 & He1 & Hr1) (Hc2 & He2 & Hr2). unfold propagated.
  rewrite (new_calls_trans w w1 w2) by done.
  simpl in *.
  destruct (last (new_calls w w1) ≫= raised_by) as [e1|] eqn:Hlast1;
    [done|]. simpl in Hr1.
  assert (last (new_calls w w1 ++ new_calls w1 w2) ≫= raised_by
          = last (new_calls w1 w2) ≫= raised_by) as Hlast.
  { destruct (new_calls w1 w2) as [|ev evs] eqn:Hevs.
    - by rewrite app_nil_r, Hlast1.
    - by rewrite last_app_cons. }
  split; [|split].
  - by rewrite app_assoc, <-Hc1.
  - by rewrite Hlast.
  - by rewrite omap_app, Hr1, Hlast.
Qed.

Lemma propagated_external {A} (call : Ext → Res Exn A * Ext) ev w :
  (∀ r, raised_by (ev r) = error_of (lift r) ≫= λ x,
          match x with ExtError e => Some e | KeyError _ => None end) →
  propagated w (external call ev w).2 (external call ev w).1.
Proof.
  intros Hev. unfold external, propagated.
  destruct (call (ext w)) as [r e']. simpl. rewrite new_calls_app. simpl.
  rewrite Hev. split; [done|]. by destruct r.
Qed.

Lemma propagated_PV w attr : propagated w (PV attr w).2 (PV attr w).1.
Proof.
  unfold propagated. rewrite <-PV_calls, PV_new_calls.
  split; [done|]. by PV_cases w attr; rewrite ?Hnew.
Qed.

Lemma propagated_bind {A B} (m : M A) (k : A → M B) w :
  propagated w (m w).2 (m w).1 →
  (∀ a w1, propagated w1 (k a w1).2 (k a w1).1) →
  propagated w ((m ≫= k) w).2 ((m ≫= k) w).1.
Proof.
  intros Hm Hk. unfold mbind, M_bind.
  destruct (m w) as [[a|x] w1]; simpl in *; [|done].
  by eapply propagated_seq.
Qed.

Lemma propagated_run_op op w :
  propagated w (run_op op w).2 (run_op op w).1.
Proof.
  destruct op as [attr|attr value wait timeout|attr as_string]; simpl.
  - apply propagated_bind; [apply propagated_PV|].
    intros h w1. apply propagated_refl.
  - apply propagated_bind; [|intros v w1; apply propagated_refl].
    apply (propagated_bind (PV attr)); [apply propagated_PV|].
    intros h w1. apply propagated_external. by intros [v|e].
  - apply propagated_bind; [|intros v w1; apply propagated_refl].
    apply (propagated_bind (PV attr)); [apply propagated_PV|].
    intros h w1. apply propagated_external. by intros [v|e].
Qed.

Lemma propagated_for_each l w :
  propagated w (for_each l preload w).2 (for_each l preload w).1.
Proof.
  revert w. induction l as [|p l IH]; intros w; [apply propagated_refl|].
  simpl. apply propagated_bind; [|by intros _ w1].
  apply propagated_bind; [apply propagated_PV|].
  intros h w1. apply propagated_refl.
Qed.

Lemma propagated_init prefix attrs w :
  propagated w (__init__ prefix attrs w).2 (__init__ prefix attrs w).1.
Proof.
  rewrite init_eq.
  set (w0 := mkWorld (mkDevice prefix ∅) (ext w) (calls w)).
  assert (propagated w w0 (Ok tt)) as Hset.
  { unfold propagated, new_calls. simpl. rewrite drop_all. simpl.
    by rewrite app_nil_r. }
  destruct attrs as [l|]; [|done].
  destruct (for_each l preload w0) as [r w1] eqn:Hloop.
  eapply propagated_seq; [exact Hset|].
  pose proof (propagated_for_each l w0) as Hl. by rewrite Hloop in Hl.
Qed.

Lemma propagated_script ops w :
  let rs := (run_script ops w).1 in
  let w' := (run_script ops w).2 in
  calls w' = calls w ++ new_calls w w'
  ∧ omap error_of rs = ExtError <$> omap raised_by (new_calls w w').
Proof.
  revert w. induction ops as [|op ops IH]; intros w; simpl.
  { rewrite new_calls_refl. by rewrite app_nil_r. }
  pose proof (propagated_run_op op w) as (Hc1 & He1 & Hr1).
  destruct (run_op op w) as [r w1]. specialize (IH w1).
  destruct (run_script ops w1) as [rs w2]. simpl in *.
  destruct IH as [Hc2 He2].
  rewrite (new_calls_trans w w1 w2) by done.
  split; [by rewrite app_assoc, <-Hc1|].
  rewrite omap_app, fmap_app, <-He2, Hr1.
  destruct r as [v|x]; simpl in *.
  - by destruct (last (new_calls w w1) ≫= raised_by).
  - by destruct (last (new_calls w w1) ≫= raised_by); simplify_eq/=.
Qed.

(** C6. What the library raises reaches the caller as it is.  Every
    method call ([PV], [put], [get]) and every construction raises exactly
    when its last call to the library raised, and then raises that same
    exception; no call to the library before the last one raised, so
    nothing was retried or recovered from; and an exception is never one
    of the wrapper's own.  Over any sequence of calls, the exceptions the
    caller sees are, in order, the exceptions the library raised. *)
Theorem library_errors_propagate_unchanged :
  (∀ op w, propagated w (run_op op w).2 (run_op op w).1)
  ∧ (∀ prefix attrs w,
       propagated w (__init__ prefix attrs w).2 (__init__ prefix attrs w).1)
  ∧ (∀ ops w,
       let rs := (run_script ops w).1 in
       let w' := (run_script ops w).2 in
       calls w' = calls w ++ new_calls w w'
       ∧ omap error_of rs = ExtError <$> omap raised_by (new_calls w w')).
Proof.
  split; [apply propagated_run_op|].
  split; [apply propagated_init|apply propagated_script].
Qed.

(** ** The cache only grows *)

Lemma init_grows_with_attrs prefix (l1 l2 : list string) w :
  _pvs (self (__init__ prefix (Some l1) w).2)
  ⊆ _pvs (self (__init__ prefix (Some (l1 ++ l2)) w).2).
Proof.
  rewrite !init_eq, for_each_app.
  destruct (for_each l1 preload _) as [[[]|x] w1]; simpl; [|done].
  apply for_each_grows.
Qed.

(** C7. The cache is a map from full names to handles, one handle per
    name, and every entry stays as it is: after a method call ([PV],
    [put], [get]), after any sequence of them, and from one step of the
    preloading of [__init__] to the next, a name that had a handle still
    has that same handle.  Nothing is removed or replaced. *)
Theorem cache_only_grows :
  (∀ op w, _pvs (self w) ⊆ _pvs (self (run_op op w).2))
  ∧ (∀ ops w, _pvs (self w) ⊆ _pvs (self (run_script ops w).2))
  ∧ (∀ prefix l1 l2 w,
       _pvs (self (__init__ prefix (Some l1) w).2)
       ⊆ _pvs (self (__init__ prefix (Some (l1 ++ l2)) w).2))
  ∧ (∀ op w name h,
       _pvs (self w) !! name = Some h →
       _pvs (self (run_op op w).2) !! name = Some h).
Proof.
  split; [apply run_op_grows|].
  split; [apply run_script_grows|].
  split; [apply init_grows_with_attrs|].
  intros op w name h Hin. eapply lookup_weaken; [done|apply run_op_grows].
Qed.

(** ** Frame *)

(** C10. A call of [PV], [put] or [get] for [attr] leaves the stored
    prefix as it was and touches no cache entry but the one of the full
    name of [attr]; neither does any sequence of calls change the
    prefix. *)
Theorem calls_touch_one_entry :
  (∀ op w,
     __prefix__ (self (run_op op w).2) = __prefix__ (self w)
     ∧ ∀ name,
         name ≠ pvname (__prefix__ (self w)) (op_attr op) →
         _pvs (self (run_op op w).2) !! name = _pvs (self w) !! name)
  ∧ (∀ ops w, __prefix__ (self (run_script ops w).2) = __prefix__ (self w)).
Proof.
  split; [|apply run_script_prefix].
  intros op w. split; [apply run_op_prefix|].
  intros name Hne. rewrite run_op_self. by apply PV_other.
Qed.

(** ** The empty prefix *)

Abbreviation as_empty := (prod_map id (with_prefix (Some ""))).

Lemma with_prefix_same p w : __prefix__ (self w) = p → with_prefix p w = w.
Proof. intros <-. by destruct w as [[prefix pvs] e c]. Qed.

Lemma PV_empty_prefix attr w :
  PV attr (with_prefix (Some "") w)
  = as_empty (PV attr (with_prefix None w)).
Proof.
  rewrite !PV_eq. simpl. change ("" +:+ attr) with attr.
  destruct (_pvs (self w) !! attr) as [h|]; [done|].
  by destruct (epics_PV attr (ext w)) as [[h|e] e'].
Qed.

Lemma run_op_empty_prefix op w :
  run_op op (with_prefix (Some "") w)
  = as_empty (run_op op (with_prefix None w)).
Proof.
  destruct op as [attr|attr value wait timeout|attr as_string]; simpl;
    unfold mbind, M_bind; simpl.
  - rewrite PV_empty_prefix.
    by destruct (PV attr (with_prefix None w)) as [[h|x] w1].
  - rewrite !put_eq, PV_empty_prefix.
    destruct (PV attr (with_prefix None w)) as [[h|x] w1]; simpl; [|done].
    by destruct (PV_put _ _ _ _ _) as [[v|e] e'].
  - rewrite !get_eq, PV_empty_prefix.
    destruct (PV attr (with_prefix None w)) as [[h|x] w1]; simpl; [|done].
    by destruct (PV_get _ _ _) as [[v|e] e'].
Qed.

Lemma for_each_empty_prefix l w :
  for_each l preload (with_prefix (Some "") w)
  = as_empty (for_each l preload (with_prefix None w)).
Proof.
  revert w. induction l as [|p l IH]; intros w; [done|].
  rewrite !for_each_cons, PV_empty_prefix.
  pose proof (PV_prefix (with_prefix None w) p) as Hprefix.
  destruct (PV p (with_prefix None w)) as [[h|x] w1]; simpl in *; [|done].
  by rewrite IH, (with_prefix_same None w1).
Qed.

Lemma run_script_empty_prefix ops w :
  run_script ops (with_prefix (Some "") w)
  = as_empty (run_script ops (with_prefix None w)).
Proof.
  revert w. induction ops as [|op ops IH]; intros w; [done|].
  simpl. rewrite run_op_empty_prefix.
  pose proof (run_op_prefix op (with_prefix None w)) as Hprefix.
  destruct (run_op op (with_prefix None w)) as [r w1]. simpl in *.
  rewrite IH, (with_prefix_same None w1) by done.
  by destruct (run_script ops w1).
Qed.

(** C9. With the empty string as prefix the full name of [attr] is
    [attr], as it is with no prefix.  A device constructed with prefix
    [""] and one constructed with prefix [None] behave alike: the
    construction, every method call and every sequence of method calls
    return or raise the same, make the same calls to the library and
    leave the same cache; the two worlds differ in the stored prefix
    only. *)
Theorem empty_prefix_like_no_prefix :
  (∀ attr, pvname (Some "") attr = attr ∧ pvname None attr = attr)
  ∧ (∀ attrs w,
       __init__ (Some "") attrs w
       = prod_map id (with_prefix (Some "")) (__init__ None attrs w))
  ∧ (∀ op w,
       run_op op (with_prefix (Some "") w)
       = prod_map id (with_prefix (Some "")) (run_op op (with_prefix None w)))
  ∧ (∀ ops w,
       run_script ops (with_prefix (Some "") w)
       = prod_map id (with_prefix (Some ""))
           (run_script ops (with_prefix None w))).
Proof.
  split; [done|]. split; [|split].
  - intros attrs w. rewrite !init_eq. destruct attrs as [l|]; [|done].
    set (w0 := mkWorld (mkDevice None ∅) (ext w) (calls w)).
    apply (for_each_empty_prefix l w0).
  - apply run_op_empty_prefix.
  - apply run_script_empty_prefix.
Qed.

(** ** One handle per name, for the life of the device *)

Lemma elem_of_created (evs : list (Event Handle PyObj Exn)) name :
  name ∈ created evs ↔ ∃ h, EvPV name (Ok h) ∈ evs.
Proof.
  unfold created. rewrite list_elem_of_omap. split.
  - intros ([n [h|e]|?|?] & Hin & Hev); simplify_eq. by exists h.
  - intros [h Hin]. by exists (EvPV name (Ok h)).
Qed.

Lemma tracked_append w0 w d e evs :
  calls w = calls w0 ++ new_calls w0 w →
  new_calls w0 (mkWorld d e (calls w ++ evs)) = new_calls w0 w ++ evs.
Proof.
  intros Hc. unfold new_calls at 1. simpl.
  by rewrite Hc at 1; rewrite <-app_assoc, drop_app_length.
Qed.

Lemma tracked_PV w0 w attr : tracked w0 w → tracked w0 (PV attr w).2.
Proof.
  intros (Hc & Hnd & Hin). unfold tracked.
  PV_cases w attr; [done|..]; rewrite (tracked_append w0 w) by done.
  - split; [by rewrite app_assoc, <-Hc|]. split.
    + unfold created. rewrite omap_app. simpl. apply NoDup_app.
      split; [done|]. split; [|apply NoDup_singleton].
      intros name [h' Hev]%elem_of_created ->%list_elem_of_singleton.
      apply Hin in Hev. congruence.
    + intros name h'. rewrite elem_of_app, list_elem_of_singleton.
      specialize (Hin name h').
      destruct (decide (name = key w attr)) as [->|Hne].
      * rewrite lookup_insert_eq. split.
        -- intros [Hold|[= ->]]; [|done]. apply Hin in Hold. congruence.
        -- intros [= ->]. by right.
      * rewrite lookup_insert_ne by done. split.
        -- intros [Hold|[= -> _]]; [by apply Hin|done].
        -- intros Hnow. left. by apply Hin.
  - split; [by rewrite app_assoc, <-Hc|]. split.
    + unfold created. rewrite omap_app. simpl. by rewrite app_nil_r.
    + intros name h'. rewrite elem_of_app, list_elem_of_singleton.
      specialize (Hin name h'). split.
      * intros [Hold|[=]]. by apply Hin.
      * intros Hnow. left. by apply Hin.
Qed.

Lemma tracked_run_op w0 w op : tracked w0 w → tracked w0 (run_op op w).2.
Proof.
  intros Hw. pose proof (tracked_PV w0 w (op_attr op) Hw) as Hw1.
  assert (∀ (w1 : World Handle PyObj Exn Ext) e ev,
            tracked w0 w1 → (∀ name r, ev ≠ EvPV name r) →
            tracked w0 (mkWorld (self w1) e (calls w1 ++ [ev]))) as Hext.
  { intros w1 e ev (Hc & Hnd & Hin) Hev. unfold tracked.
    rewrite (tracked_append w0 w1) by done. simpl.
    split; [by rewrite app_assoc, <-Hc|]. split.
    - unfold created. rewrite omap_app.
      destruct ev as [name r|?|?]; [by destruct (Hev name r)|..]; simpl;
        by rewrite app_nil_r.
    - intros name h. rewrite elem_of_app, list_elem_of_singleton.
      specialize (Hin name h). split.
      + intros [Hold|Heq]; [by apply Hin|].
        by destruct (Hev name (Ok h)).
      + intros Hnow. left. by apply Hin. }
  destruct op as [attr|attr value wait timeout|attr as_string]; simpl in *;
    unfold mbind, M_bind; simpl.
  - by destruct (PV attr w) as [[h|x] w1].
  - rewrite put_eq. destruct (PV attr w) as [[h|x] w1]; simpl; [|done].
    destruct (PV_put _ _ _ _ _) as [[v|e] e2]; simpl; by apply Hext.
  - rewrite get_eq. destruct (PV attr w) as [[h|x] w1]; simpl; [|done].
    destruct (PV_get _ _ _) as [[v|e] e2]; simpl; by apply Hext.
Qed.

Lemma tracked_run_script w0 w ops :
  tracked w0 w → tracked w0 (run_script ops w).2.
Proof.
  revert w. induction ops as [|op ops IH]; intros w Hw; [done|].
  simpl. pose proof (tracked_run_op w0 w op Hw) as Hop.
  destruct (run_op op w) as [r w1]. specialize (IH w1 Hop).
  by destruct (run_script ops w1).
Qed.

Lemma tracked_for_each w0 w l :
  tracked w0 w → tracked w0 (for_each l preload w).2.
Proof.
  revert w. induction l as [|p l IH]; intros w Hw; [done|].
  rewrite for_each_cons. pose proof (tracked_PV w0 w p Hw) as Hp.
  destruct (PV p w) as [[h|x] w1]; [by apply IH|done].
Qed.

Lemma tracked_init prefix attrs w0 :
  tracked w0 (__init__ prefix attrs w0).2.
Proof.
  rewrite init_eq.
  assert (tracked w0 (mkWorld (mkDevice prefix ∅) (ext w0) (calls w0)))
    as Hstart.
  { unfold tracked, new_calls. simpl. rewrite drop_all, app_nil_r.
    split; [done|]. split; [apply NoDup_nil_2|].
    intros name h. by rewrite elem_of_nil, lookup_empty. }
  destruct attrs as [l|]; [by apply tracked_for_each|done].
Qed.

(** X1. From its construction on and through any sequence of method
    calls, the cache of a device holds exactly the handles the constructor
    returned, each under the name it was asked for, and the constructor
    returned a handle at most once per name. *)
Lemma one_handle_per_name prefix attrs ops w0 :
  tracked w0 (run_script ops (__init__ prefix attrs w0).2).2.
Proof. apply tracked_run_script, tracked_init. Qed.

(** ** Which names get into the cache *)

#[local] Set Warnings "-clear-no-such-hyp".

Lemma PV_dom w attr :
  dom (_pvs (self (PV attr w).2)) ⊆ {[key w attr]} ∪ dom (_pvs (self w)).
Proof. PV_cases w attr; [|rewrite dom_insert|]; set_solver. Qed.

Lemma for_each_dom l w :
  dom (_pvs (self (for_each l preload w).2))
  ⊆ list_to_set (pvname (__prefix__ (self w)) <$> l) ∪ dom (_pvs (self w)).
Proof.
  revert w. induction l as [|p l IH]; intros w; [set_solver|].
  rewrite for_each_cons. pose proof (PV_dom w p) as Hp.
  pose proof (PV_prefix w p) as Hprefix.
  destruct (PV p w) as [[h|x] w1]; simpl in *; [|set_solver].
  specialize (IH w1). rewrite Hprefix in IH. set_solver.
Qed.

Lemma run_script_dom ops w :
  dom (_pvs (self (run_script ops w).2))
  ⊆ list_to_set (pvname (__prefix__ (self w)) <$> (op_attr <$> ops))
    ∪ dom (_pvs (self w)).
Proof.
  revert w. induction ops as [|op ops IH]; intros w; [set_solver|].
  simpl. pose proof (PV_dom w (op_attr op)) as Hp.
  rewrite <-run_op_self in Hp.
  pose proof (run_op_prefix op w) as Hprefix.
  destruct (run_op op w) as [r w1]. specialize (IH w1).
  destruct (run_script ops w1) as [rs w2]. simpl in *.
  rewrite Hprefix in IH. set_solver.
Qed.

Lemma init_dom prefix attrs w :
  dom (_pvs (self (__init__ prefix attrs w).2))
  ⊆ list_to_set (pvname prefix <$> default [] attrs).
Proof.
  rewrite init_eq. destruct attrs as [l|]; simpl; [|set_solver].
  set (w0 := mkWorld (mkDevice prefix ∅) (ext w) (calls w)).
  pose proof (for_each_dom l w0) as Hl. simpl in Hl. set_solver.
Qed.

(** X2. Every name in the cache of a device is the full name of an
    attribute that was preloaded or passed to a method call: the cache
    never holds a name nobody asked for. *)
Theorem cache_keys_are_requested_names prefix attrs ops w0 :
  dom (_pvs (self (run_script ops (__init__ prefix attrs w0).2).2))
  ⊆ list_to_set (pvname prefix <$> (default [] attrs ++ (op_attr <$> ops))).
Proof.
  pose proof (run_script_dom ops (__init__ prefix attrs w0).2) as Hs.
  pose proof (init_dom prefix attrs w0) as Hi.
  rewrite init_prefix in Hs. rewrite fmap_app, list_to_set_app. set_solver.
Qed.

(** ** Attributes do not interfere *)

Lemma pvname_inj prefix attr1 attr2 :
  pvname prefix attr1 = pvname prefix attr2 → attr1 = attr2.
Proof. destruct prefix as [p|]; simpl; [apply (inj _)|done]. Qed.

(** X3. Two different attribute names never share a cache entry: a call
    of [PV], [put] or [get] for one attribute leaves the entry of every
    other attribute as it was. *)
Theorem other_attribute_entry_untouched op w attr :
  attr ≠ op_attr op →
  _pvs (self (run_op op w).2) !! pvname (__prefix__ (self w)) attr
  = _pvs (self w) !! pvname (__prefix__ (self w)) attr.
Proof.
  intros Hne. rewrite run_op_self. apply PV_other.
  intros Heq. by apply pvname_inj in Heq.
Qed.

(** ** What the methods never call *)

Lemma PV_only_constructor w attr ev :
  ev ∈ new_calls w (PV attr w).2 → ∃ name r, ev = EvPV name r.
Proof.
  rewrite PV_new_calls. destruct (_pvs (self w) !! key w attr).
  - by intros ?%elem_of_nil.
  - intros ->%list_elem_of_singleton. eauto.
Qed.

Lemma for_each_only_constructor l w ev :
  ev ∈ new_calls w (for_each l preload w).2 → ∃ name r, ev = EvPV name r.
Proof.
  revert w. induction l as [|p l IH]; intros w.
  { simpl. rewrite new_calls_refl. by intros ?%elem_of_nil. }
  rewrite for_each_cons.
  pose proof (PV_only_constructor w p ev) as Hp.
  pose proof (propagated_PV w p) as [Hc1 _].
  destruct (PV p w) as [[h|x] w1]; simpl in *; [|done].
  pose proof (propagated_for_each l w1) as [Hc2 _].
  rewrite (new_calls_trans w w1) by done.
  intros [Hin|Hin]%elem_of_app; [by apply Hp|by apply (IH w1)].
Qed.

(** X4. [PV] and the construction call nothing of the library but the
    constructor [epics.PV]: resolving or preloading an attribute never
    reads or writes a PV.  [get] never writes and [put] never reads. *)
Theorem methods_call_no_more_than_needed :
  (∀ w attr ev, ev ∈ new_calls w (PV attr w).2 → ∃ name r, ev = EvPV name r)
  ∧ (∀ prefix attrs w ev,
       ev ∈ new_calls w (__init__ prefix attrs w).2 →
       ∃ name r, ev = EvPV name r)
  ∧ (∀ attr as_string w h v wt t r,
       EvPut h v wt t r ∉ new_calls w (get attr as_string w).2)
  ∧ (∀ attr value wait timeout w h s r,
       EvGet h s r ∉ new_calls w (put attr value wait timeout w).2).
Proof.
  split; [apply PV_only_constructor|]. split; [|split].
  - intros prefix attrs w ev. rewrite init_eq.
    set (w0 := mkWorld (mkDevice prefix ∅) (ext w) (calls w)).
    destruct attrs as [l|].
    + apply (for_each_only_constructor l w0).
    + unfold new_calls. simpl. rewrite drop_all. by intros ?%elem_of_nil.
  - intros attr as_string w h v wt t r. rewrite get_eq.
    PV_cases w attr;
      try (destruct (PV_get _ _ _) as [r' e2]; simpl);
      rewrite ?new_calls_app, ?new_calls_app_assoc; simpl;
      rewrite ?elem_of_cons, elem_of_nil; naive_solver.
  - intros attr value wait timeout w h s r. rewrite put_eq.
    PV_cases w attr;
      try (destruct (PV_put _ _ _ _ _) as [r' e2]; simpl);
      rewrite ?new_calls_app, ?new_calls_app_assoc; simpl;
      rewrite ?elem_of_cons, elem_of_nil; naive_solver.
Qed.

(** ** Cached names are not asked for again *)

Lemma run_op_requested op w :
  requested (new_calls w (run_op op w).2) =
    match _pvs (self w) !! key w (op_attr op) with
    | Some _ => []
    | None => [key w (op_attr op)]
    end.
Proof.
  destruct op as [attr|attr value wait timeout|attr as_string]; simpl.
  - pose proof (PV_new_calls w attr) as Hcalls.
    unfold mbind, M_bind at 1.
    destruct (PV attr w) as [[h|x] w1]; simpl in *; rewrite Hcalls;
      by destruct (_pvs (self w) !! key w attr).
  - pose proof (put_resolves w attr value wait timeout) as [Hreq _].
    unfold mbind, M_bind at 1.
    by destruct (put attr value wait timeout w) as [[v|x] w1].
  - pose proof (get_resolves w attr as_string) as [Hreq _].
    unfold mbind, M_bind at 1.
    by destruct (get attr as_string w) as [[v|x] w1].
Qed.

Lemma requested_app (evs1 evs2 : list (Event Handle PyObj Exn)) :
  requested (evs1 ++ evs2) = requested evs1 ++ requested evs2.
Proof. apply omap_app. Qed.

Lemma cached_not_requested ops w name :
  is_Some (_pvs (self w) !! name) →
  name ∉ requested (new_calls w (run_script ops w).2).
Proof.
  revert w. induction ops as [|op ops IH]; intros w Hin.
  { simpl. rewrite new_calls_refl. apply not_elem_of_nil. }
  simpl. pose proof (run_op_requested op w) as Hreq.
  pose proof (run_op_grows op w) as Hgrow.
  pose proof (propagated_run_op op w) as [Hc1 _].
  destruct (run_op op w) as [r w1]. specialize (IH w1).
  pose proof (propagated_script ops w1) as Hc2. simpl in Hc2.
  destruct Hc2 as [Hc2 _].
  destruct (run_script ops w1) as [rs w2]. simpl in *.
  rewrite (new_calls_trans w w1 w2), requested_app, Hreq by done.
  apply not_elem_of_app. split.
  - destruct (_pvs (self w) !! key w (op_attr op)) eqn:Hlook;
      [apply not_elem_of_nil|].
    intros ->%list_elem_of_singleton. rewrite Hlook in Hin.
    by destruct Hin.
  - apply IH. destruct Hin as [h Hin]. exists h.
    by eapply lookup_weaken.
Qed.

(** X5. An attribute preloaded by a construction that succeeded is never
    asked of the constructor again, whatever sequence of method calls
    follows. *)
Theorem preloaded_never_requested_again prefix l a ops w0 :
  (__init__ prefix (Some l) w0).1 = Ok tt →
  a ∈ l →
  let d := (__init__ prefix (Some l) w0).2 in
  pvname prefix a ∉ requested (new_calls d (run_script ops d).2).
Proof.
  intros Hok Hin d. apply cached_not_requested. unfold d.
  rewrite init_eq in Hok |- *.
  set (w1 := mkWorld (mkDevice prefix ∅) (ext w0) (calls w0)) in *.
  apply (for_each_cached l w1 a Hok Hin).
Qed.

(** ** A construction that fails *)

(** X6. Preloading stops at the first attribute whose handle cannot be
    created: the construction raises the exception of [epics.PV], and the
    attributes listed after it are not looked at, so the outcome is the
    same whatever they are. *)
Theorem init_stops_at_first_failure prefix l1 a l2 w0 w1 e e' :
  __init__ prefix (Some l1) w0 = (Ok tt, w1) →
  _pvs (self w1) !! pvname prefix a = None →
  epics_PV (pvname prefix a) (ext w1) = (Raise e, e') →
  __init__ prefix (Some (l1 ++ a :: l2)) w0
  = (Raise (ExtError e),
     mkWorld (self w1) e' (calls w1 ++ [EvPV (pvname prefix a) (Raise e)])).
Proof.
  intros Hl1 Hout Hnew.
  pose proof (init_prefix prefix (Some l1) w0) as Hprefix.
  rewrite Hl1 in Hprefix. simpl in Hprefix.
  rewrite init_eq in Hl1 |- *.
  rewrite for_each_app, Hl1, for_each_cons, PV_eq, Hprefix, Hout, Hnew.
  done.
Qed.

(** ** A handle, once cached, serves every later call *)

Lemma cached_stays w attr h ops :
  _pvs (self w) !! key w attr = Some h →
  _pvs (self (run_script ops w).2) !! key (run_script ops w).2 attr = Some h.
Proof.
  intros Hin. rewrite run_script_prefix.
  eapply lookup_weaken; [done|apply run_script_grows].
Qed.

(** X7. Once an attribute has a handle in the cache, every later [get]
    and [put] for it, after any sequence of method calls, makes a single
    call to the library: the read, or the write, on that same handle.  The
    constructor is not called. *)
Theorem cached_handle_serves_later_calls w attr h ops value wait timeout
    as_string :
  _pvs (self w) !! pvname (__prefix__ (self w)) attr = Some h →
  let w' := (run_script ops w).2 in
  let s := default false as_string in
  let wt := default false wait in
  let t := default 10.0%float timeout in
  new_calls w' (get attr as_string w').2
  = [EvGet h s (PV_get h s (ext w')).1]
  ∧ new_calls w' (put attr value wait timeout w').2
    = [EvPut h value wt t (PV_put h value wt t (ext w')).1].
Proof.
  intros Hin w' s wt t.
  pose proof (PV_cached w' attr h (cached_stays w attr h ops Hin)) as Hres.
  split.
  - rewrite get_eq, Hres. simpl. fold s.
    destruct (PV_get h s (ext w')) as [r e2]. simpl.
    by rewrite new_calls_app.
  - rewrite put_eq, Hres. simpl. fold wt t.
    destruct (PV_put h value wt t (ext w')) as [r e2]. simpl.
    by rewrite new_calls_app.
Qed.

(** ** The requests of a construction *)

Lemma requested_created (evs : list (Event Handle PyObj Exn)) :
  (∀ ev, ev ∈ evs → ∃ name r, ev = EvPV name r) →
  omap raised_by evs = [] →
  requested evs = created evs.
Proof.
  induction evs as [|ev evs IH]; intros Hpv Hraised; [done|].
  destruct (Hpv ev) as (name & [h|e] & ->); [by left| |done].
  simpl in *. unfold requested, created in *. simpl. f_equal.
  apply IH; [|done]. intros ev' Hin. apply Hpv. by right.
Qed.

(** X8. A construction that succeeds asks the constructor once for each
    distinct attribute of [attrs], and for nothing else: an attribute
    listed twice is created once. *)
Theorem init_requests_each_name_once prefix l w0 :
  (__init__ prefix (Some l) w0).1 = Ok tt →
  let evs := new_calls w0 (__init__ prefix (Some l) w0).2 in
  NoDup (requested evs)
  ∧ ∀ name, name ∈ requested evs ↔ name ∈ pvname prefix <$> l.
Proof.
  intros Hok evs.
  pose proof (tracked_init prefix (Some l) w0) as (_ & Hnd & Hin).
  pose proof (propagated_init prefix (Some l) w0) as (_ & Herr & Hraised).
  fold evs in Hnd, Hin, Herr, Hraised.
  rewrite Hok in Herr. simpl in Herr.
  destruct (last evs ≫= raised_by) as [e|] eqn:Hlast; [done|].
  simpl in Hraised.
  assert (requested evs = created evs) as ->.
  { apply requested_created; [|done]. intros ev Hev.
    pose proof (for_each_only_constructor l
                  (mkWorld (mkDevice prefix ∅) (ext w0) (calls w0)) ev) as Hpv.
    apply Hpv. unfold evs in Hev. by rewrite init_eq in Hev. }
  split; [done|]. intros name. rewrite elem_of_created. split.
  - intros [h Hev]. apply Hin in Hev.
    pose proof (init_dom prefix (Some l) w0) as Hdom. simpl in Hdom.
    assert (name ∈ dom (_pvs (self (__init__ prefix (Some l) w0).2))) as Hd
      by (apply elem_of_dom; by exists h).
    apply Hdom in Hd. by apply elem_of_list_to_set in Hd.
  - intros (a & -> & Ha)%list_elem_of_fmap.
    rewrite init_eq in Hok.
    set (w1 := mkWorld (mkDevice prefix ∅) (ext w0) (calls w0)) in *.
    destruct (for_each_cached l w1 a Hok Ha) as [h Hh].
    exists h. apply Hin. by rewrite init_eq.
Qed.

(** ** Calls on cached attributes leave the device alone *)

(** X9. When every attribute used by a sequence of method calls has its
    handle in the cache already, the sequence does not change the device
    (prefix and cache stay as they are) and never calls the constructor. *)
Theorem calls_on_cached_attrs_keep_device ops w :
  Forall (λ op,
            is_Some (_pvs (self w) !! pvname (__prefix__ (self w)) (op_attr op)))
         ops →
  self (run_script ops w).2 = self w
  ∧ requested (new_calls w (run_script ops w).2) = [].
Proof.
  revert w. induction ops as [|op ops IH]; intros w Hall.
  { simpl. by rewrite new_calls_refl. }
  apply Forall_cons in Hall as [[h Hop] Hops]. simpl.
  pose proof (run_op_self op w) as Hself.
  pose proof (run_op_requested op w) as Hreq.
  pose proof (propagated_run_op op w) as [Hc1 _].
  rewrite (PV_cached w (op_attr op) h Hop) in Hself. rewrite Hop in Hreq.
  destruct (run_op op w) as [r w1]. simpl in *.
  pose proof (propagated_script ops w1) as Hc2. simpl in Hc2.
  destruct Hc2 as [Hc2 _].
  destruct (IH w1) as [IHself IHreq]; [by rewrite Hself|].
  destruct (run_script ops w1) as [rs w2]. simpl in *.
  split; [congruence|].
  by rewrite (new_calls_trans w w1 w2), requested_app, Hreq, IHreq.
Qed.

End Properties.

(** * The properties at work on the recording stand-in *)

Section Examples.
Import Fake.

Example struck_is_preloaded : struck = struck_world.
Proof. vm_compute. reflexivity. Qed.

(** The scenario of the class docstring: a write of [1] to
    [13IDC:str:EraseStart], then a read of [13IDC:str:mca1], whose handle
    is created by the read. *)
Example struck_scenario :
  new_calls struck
    (run_script [OpPut "EraseStart" (PyInt 1) None None; OpGet "mca1" None]
       struck).2
  = [EvPut 0 (PyInt 1) false 10.0%float (Ok (PyInt 1));
     EvPV "13IDC:str:mca1" (Ok 2);
     EvGet 2 false (Raise "timeout")].
Proof. vm_compute. reflexivity. Qed.

(** A constructor that raises is asked again by the next call. *)
Example PV_asks_again_after_failure :
  (run_script [OpPV ""; OpPV ""] start).1
  = [Raise (ExtError "invalid name"); Raise (ExtError "invalid name")]
  ∧ requested (new_calls start (run_script [OpPV ""; OpPV ""] start).2)
    = [""; ""].
Proof. split; vm_compute; reflexivity. Qed.

(** A construction that fails on its second attribute. *)
Example init_fails_with_the_library :
  (__init__ None (Some ["13IDC:m1.VAL"; ""]) start).1
  = Raise (ExtError "invalid name").
Proof. vm_compute. reflexivity. Qed.

(** C2, as it is stated, fails on a name that is cached already:
    [EraseStart] was preloaded, both calls of [PV] return its handle, and
    the constructor is not called, where the claim has it called once. *)
Lemma PV_twice_on_cached_name_creates_nothing :
  (PV "EraseStart" struck).1 = Ok 0
  ∧ (PV "EraseStart" (PV "EraseStart" struck).2).1 = Ok 0
  ∧ requested
      (new_calls struck (PV "EraseStart" (PV "EraseStart" struck).2).2)
    = []
  ∧ length
      (requested
         (new_calls struck (PV "EraseStart" (PV "EraseStart" struck).2).2))
    ≠ 1.
Proof. repeat split; vm_compute; done. Qed.

(** C2 at work: [mca1] is not preloaded; the first [PV] creates its
    handle, the second returns it. *)
Lemma PV_twice_same_handle_witness :
  PV "mca1" struck = (Ok 2, struck_mca1)
  ∧ PV "mca1" struck_mca1 = (Ok 2, struck_mca1)
  ∧ requested (new_calls struck (PV "mca1" struck_mca1).2)
    = ["13IDC:str:mca1"].
Proof.
  assert (PV "mca1" struck = (Ok 2, struck_mca1)) as Hfirst
    by (vm_compute; reflexivity).
  split; [exact Hfirst|].
  exact (PV_twice_same_handle struck "mca1" 2 struck_mca1 Hfirst).
Defined.

(** C3 at work: [struck.put('EraseStart', 1, wait=True, timeout=5.0)]. *)
Lemma put_forwards_unchanged_witness :
  PV "EraseStart" struck = (Ok 0, struck)
  ∧ put "EraseStart" (PyInt 1) (Some true) (Some 5.0%float) struck
    = (Ok (PyInt 1),
       mkWorld (self struck)
         (mkExt (created (ext struck))
            {["13IDC:str:EraseStart" := PyInt 1]})
         (calls struck
            ++ [EvPut 0 (PyInt 1) true 5.0%float (Ok (PyInt 1))])).
Proof.
  assert (PV "EraseStart" struck = (Ok 0, struck)) as Hres
    by (vm_compute; reflexivity).
  split; [exact Hres|].
  exact (proj1 (put_forwards_unchanged struck "EraseStart" (PyInt 1) true
                  5.0%float 0 struck Hres)).
Defined.

(** C4 at work: [struck.get('EraseStart', as_string=True)], on a PV that
    has no value yet. *)
Lemma get_forwards_unchanged_witness :
  PV "EraseStart" struck = (Ok 0, struck)
  ∧ get "EraseStart" (Some true) struck
    = (Raise (ExtError "timeout"),
       mkWorld (self struck) (ext struck)
         (calls struck ++ [EvGet 0 true (Raise "timeout")])).
Proof.
  assert (PV "EraseStart" struck = (Ok 0, struck)) as Hres
    by (vm_compute; reflexivity).
  split; [exact Hres|].
  exact (proj1 (get_forwards_unchanged struck "EraseStart" true 0 struck
                  Hres)).
Defined.

(** C8 at work: the empty name, which the constructor refuses. *)
Lemma PV_failure_stores_nothing_witness :
  _pvs (self start) !! "" = None
  ∧ epics_PV "" (ext start) = (Raise "invalid name", ext start)
  ∧ (PV "" start).1 = Raise (ExtError "invalid name")
  ∧ self (PV "" start).2 = self start
  ∧ new_calls (PV "" start).2 (PV "" (PV "" start).2).2
    = [EvPV "" (Raise "invalid name")].
Proof.
  assert (_pvs (self start) !! "" = None) as Hout by reflexivity.
  assert (epics_PV "" (ext start) = (Raise "invalid name", ext start))
    as Hnew by reflexivity.
  split; [exact Hout|]. split; [exact Hnew|].
  exact (PV_failure_stores_nothing start "" "invalid name" (ext start)
           Hout Hnew).
Defined.

End Examples.

(** * Further properties at work on the recording stand-in *)

Section MoreExamples.
Import Fake.

(** A construction with an attribute listed twice creates it once. *)
Example init_with_duplicate_attr :
  requested
    (new_calls start
       (__init__ (Some "13IDC:str:")
          (Some ["EraseStart"; "StopAll"; "EraseStart"]) start).2)
  = ["13IDC:str:EraseStart"; "13IDC:str:StopAll"].
Proof. vm_compute. reflexivity. Qed.

(** X3 at work: a [get] of [mca1] leaves the entry of [EraseStart]. *)
Lemma other_attribute_entry_untouched_witness :
  "EraseStart" ≠ "mca1"
  ∧ _pvs (self (run_op (OpGet "mca1" None) struck).2)
      !! pvname (__prefix__ (self struck)) "EraseStart"
    = _pvs (self struck) !! pvname (__prefix__ (self struck)) "EraseStart".
Proof.
  assert ("EraseStart" ≠ "mca1") as Hne by done.
  split; [exact Hne|].
  exact (other_attribute_entry_untouched (OpGet "mca1" None) struck
           "EraseStart" Hne).
Defined.

(** X5 at work: [StopAll] is preloaded; the calls that follow create
    [mca1] only. *)
Lemma preloaded_never_requested_again_witness :
  (__init__ (Some "13IDC:str:") (Some ["EraseStart"; "StopAll"]) start).1
  = Ok tt
  ∧ "StopAll" ∈ ["EraseStart"; "StopAll"]
  ∧ "13IDC:str:StopAll"
    ∉ requested
        (new_calls struck
           (run_script [OpPut "StopAll" (PyInt 1) None None; OpGet "mca1" None]
              struck).2).
Proof.
  assert ((__init__ (Some "13IDC:str:") (Some ["EraseStart"; "StopAll"])
             start).1 = Ok tt) as Hok by (vm_compute; reflexivity).
  assert ("StopAll" ∈ ["EraseStart"; "StopAll"]) as Hin
    by (right; left).
  split; [exact Hok|]. split; [exact Hin|].
  exact (preloaded_never_requested_again (Some "13IDC:str:")
           ["EraseStart"; "StopAll"] "StopAll"
           [OpPut "StopAll" (PyInt 1) None None; OpGet "mca1" None]
           start Hok Hin).
Defined.

(** X6 at work: the empty name is refused, [13IDC:m3.VAL] is never
    reached. *)
Lemma init_stops_at_first_failure_witness :
  __init__ None (Some ["13IDC:m1.VAL"]) start
  = (Ok tt,
     mkWorld (mkDevice None {["13IDC:m1.VAL" := 0]})
       (mkExt ["13IDC:m1.VAL"] ∅) [EvPV "13IDC:m1.VAL" (Ok 0)])
  ∧ __init__ None (Some (["13IDC:m1.VAL"] ++ "" :: ["13IDC:m3.VAL"])) start
    = (Raise (ExtError "invalid name"),
       mkWorld (mkDevice None {["13IDC:m1.VAL" := 0]})
         (mkExt ["13IDC:m1.VAL"] ∅)
         ([EvPV "13IDC:m1.VAL" (Ok 0)] ++ [EvPV "" (Raise "invalid name")])).
Proof.
  set (w1 := mkWorld (mkDevice None {["13IDC:m1.VAL" := 0]})
               (mkExt ["13IDC:m1.VAL"] ∅) [EvPV "13IDC:m1.VAL" (Ok 0)]).
  assert (__init__ None (Some ["13IDC:m1.VAL"]) start = (Ok tt, w1)) as Hl1
    by (vm_compute; reflexivity).
  assert (_pvs (self w1) !! pvname None "" = None) as Hout
    by (vm_compute; reflexivity).
  assert (epics_PV (pvname None "") (ext w1)
          = (Raise "invalid name", ext w1)) as Hnew by reflexivity.
  split; [exact Hl1|].
  exact (init_stops_at_first_failure None ["13IDC:m1.VAL"] ""
           ["13IDC:m3.VAL"] start w1 "invalid name" (ext w1) Hl1 Hout Hnew).
Defined.

(** X7 at work: after a write of [7] and the creation of [mca1], a [get]
    of [EraseStart] as a string reads its preloaded handle, and a [put] of
    [None] writes to it (and is refused). *)
Lemma cached_handle_serves_later_calls_witness :
  _pvs (self struck) !! pvname (__prefix__ (self struck)) "EraseStart"
  = Some 0
  ∧ new_calls
      (run_script [OpPut "EraseStart" (PyInt 7) None None; OpPV "mca1"]
         struck).2
      (get "EraseStart" (Some true)
         (run_script [OpPut "EraseStart" (PyInt 7) None None; OpPV "mca1"]
            struck).2).2
    = [EvGet 0 true (Ok (PyStr "7"))]
  ∧ new_calls
      (run_script [OpPut "EraseStart" (PyInt 7) None None; OpPV "mca1"]
         struck).2
      (put "EraseStart" PyNone None None
         (run_script [OpPut "EraseStart" (PyInt 7) None None; OpPV "mca1"]
            struck).2).2
    = [EvPut 0 PyNone false 10.0%float (Raise "type mismatch")].
Proof.
  assert (_pvs (self struck) !! pvname (__prefix__ (self struck)) "EraseStart"
          = Some 0) as Hin by (vm_compute; reflexivity).
  split; [exact Hin|].
  exact (cached_handle_serves_later_calls struck "EraseStart" 0
           [OpPut "EraseStart" (PyInt 7) None None; OpPV "mca1"]
           PyNone None None (Some true) Hin).
Defined.

(** X8 at work: [EraseStart] is listed twice. *)
Lemma init_requests_each_name_once_witness :
  (__init__ (Some "13IDC:str:")
     (Some ["EraseStart"; "StopAll"; "EraseStart"]) start).1 = Ok tt
  ∧ NoDup
      (requested
         (new_calls start
            (__init__ (Some "13IDC:str:")
               (Some ["EraseStart"; "StopAll"; "EraseStart"]) start).2))
  ∧ ∀ name,
      name ∈ requested
               (new_calls start
                  (__init__ (Some "13IDC:str:")
                     (Some ["EraseStart"; "StopAll"; "EraseStart"]) start).2)
      ↔ name ∈ pvname (Some "13IDC:str:")
                 <$> ["EraseStart"; "StopAll"; "EraseStart"].
Proof.
  assert ((__init__ (Some "13IDC:str:")
             (Some ["EraseStart"; "StopAll"; "EraseStart"]) start).1 = Ok tt)
    as Hok by (vm_compute; reflexivity).
  split; [exact Hok|].
  exact (init_requests_each_name_once (Some "13IDC:str:")
           ["EraseStart"; "StopAll"; "EraseStart"] start Hok).
Defined.

(** X9 at work: two calls on the preloaded attributes of [struck]. *)
Lemma calls_on_cached_attrs_keep_device_witness :
  Forall (λ op,
            is_Some (_pvs (self struck)
                       !! pvname (__prefix__ (self struck)) (op_attr op)))
         [OpPut "EraseStart" (PyInt 1) None None; OpGet "StopAll" None]
  ∧ self (run_script
            [OpPut "EraseStart" (PyInt 1) None None; OpGet "StopAll" None]
            struck).2
    = self struck
  ∧ requested
      (new_calls struck
         (run_script
            [OpPut "EraseStart" (PyInt 1) None None; OpGet "StopAll" None]
            struck).2)
    = [].
Proof.
  assert (Forall (λ op,
            is_Some (_pvs (self struck)
                       !! pvname (__prefix__ (self struck)) (op_attr op)))
         [OpPut "EraseStart" (PyInt 1) None None; OpGet "StopAll" None])
    as Hall.
  { repeat constructor; vm_compute; eauto. }
  split; [exact Hall|].
  exact (calls_on_cached_attrs_keep_device
           [OpPut "EraseStart" (PyInt 1) None None; OpGet "StopAll" None]
           struck Hall).
Defined.

End MoreExamples.
